(** * Signed peer records: a shallow embedding of [peer/record.go]

    The development follows the Go file top to bottom.  Pointer receivers
    live in an explicit heap, so that nil receivers, in-place decoding and
    aliasing between a receiver and an argument are all visible.  The
    packages the file imports (protobuf codec, multiaddr, crypto, peer
    identity) are interfaces here: type classes whose methods are the calls
    the Go code makes. *)

From Stdlib Require Import ZArith.
From stdpp Require Import base option list gmap strings.

Local Open Scope Z_scope.

(** ** Byte slices, Go errors and fallible results *)

Abbreviation bytes := (list Byte.byte).

(** The [error] values this file can observe.  The two values built in
    [record.go] itself are constructors of their own; every error coming
    out of an imported package is an [ErrExternal]. *)
Inductive error : Type :=
  | ErrPeerIdMismatch
  | ErrNilReceiver
  | ErrExternal (msg : string).

Definition Error (e : error) : string :=
  match e with
  | ErrPeerIdMismatch => "signing key does not match record.PeerID"
  | ErrNilReceiver => "cannot unmarshal PeerRecord to nil receiver"
  | ErrExternal msg => msg
  end.

(** A Go result pair [(T, error)]: either a value with a nil error, or no
    value and an error. *)
Inductive result (A : Type) : Type :=
  | Ok (a : A)
  | Err (e : error).
Arguments Ok {A} a.
Arguments Err {A} e.

Definition is_Ok {A} (r : result A) : bool :=
  match r with Ok _ => true | Err _ => false end.

(** ** The imported packages, as interfaces *)

(** [peer.ID]: a comparable identifier with a binary codec. *)
Class PeerIDLib : Type := {
  ID : Type;
  ID_eq_dec :: EqDecision ID;
  ID_zero : ID;
  ID_MarshalBinary : ID -> result bytes;
  ID_UnmarshalBinary : bytes -> result ID;
}.

(** [crypto.PrivKey] and the derivation of a peer identity from a key. *)
Class CryptoLib `{PeerIDLib} : Type := {
  PrivKey : Type;
  PubKey : Type;
  GetPublic : PrivKey -> PubKey;
  PrivKey_Sign : PrivKey -> bytes -> result bytes;
  IDFromPrivateKey : PrivKey -> result ID;
}.

(** [ma.Multiaddr]: the three methods and constructors the file calls. *)
Class MultiaddrLib : Type := {
  Multiaddr : Type;
  ma_Bytes : Multiaddr -> bytes;
  NewMultiaddrBytes : bytes -> result Multiaddr;
  ma_Equal : Multiaddr -> Multiaddr -> bool;
}.

(** The wire message [pb.PeerRecord] and its entry type, with the fields
    the Go code reads and writes. *)
Record PeerRecord_AddressInfo : Type := mkAddressInfo {
  Multiaddr_bytes : bytes;
}.

Record pb_PeerRecord : Type := mkPbPeerRecord {
  PeerId : bytes;
  Addresses : list PeerRecord_AddressInfo;
  pb_Seq : Z;
}.

(** [proto.Marshal] and [proto.Unmarshal] at the type [pb.PeerRecord]. *)
Class ProtoCodec : Type := {
  proto_Marshal : pb_PeerRecord -> result bytes;
  proto_Unmarshal : bytes -> result pb_PeerRecord;
}.

(** ** Constants of the package *)

Definition PeerRecordEnvelopeDomain : string := "libp2p-peer-record".

(** A package variable in Go; nothing in the file assigns it, so it is a
    constant here. *)
Definition PeerRecordEnvelopePayloadType : bytes :=
  String.list_byte_of_string "/libp2p/peer-record".

(** [uint64(time.Now().UnixNano())]: the clock reading is a signed 64-bit
    count of nanoseconds, converted to uint64 by wrap-around. *)
Definition TimestampSeq (unixNano : Z) : Z := unixNano mod 2 ^ 64.

Section PeerRecords.

Context {idlib : PeerIDLib} {cryptolib : CryptoLib} {malib : MultiaddrLib}
  {wirelib : ProtoCodec}.

(** ** The record and the heap of records *)

Record PeerRecord : Type := mkPeerRecord {
  PeerID : ID;
  Addrs : list Multiaddr;
  Seq : Z;
}.

(** [peer.AddrInfo], the argument of [PeerRecordFromAddrInfo]. *)
Record AddrInfo : Type := mkAddrInfo {
  AddrInfo_ID : ID;
  AddrInfo_Addrs : list Multiaddr;
}.

(** [&PeerRecord{}] *)
Definition PeerRecord_zero : PeerRecord :=
  {| PeerID := ID_zero; Addrs := []; Seq := 0 |}.

Definition set_PeerID (id : ID) (r : PeerRecord) : PeerRecord :=
  {| PeerID := id; Addrs := Addrs r; Seq := Seq r |}.
Definition set_Addrs (a : list Multiaddr) (r : PeerRecord) : PeerRecord :=
  {| PeerID := PeerID r; Addrs := a; Seq := Seq r |}.
Definition set_Seq (s : Z) (r : PeerRecord) : PeerRecord :=
  {| PeerID := PeerID r; Addrs := Addrs r; Seq := s |}.

(** A [*PeerRecord]: nil, or the address of a record on the heap. *)
Inductive pointer : Type :=
  | Nil
  | Ref (l : positive).

#[export] Instance pointer_eq_dec : EqDecision pointer.
Proof. solve_decision. Defined.

(** Computations that read and write records through pointers.  [None] is
    a run-time panic (nil dereference, index out of range). *)
Definition M (A : Type) : Type :=
  gmap positive PeerRecord -> option (A * gmap positive PeerRecord).

Definition ret {A} (a : A) : M A := fun h => Some (a, h).

Definition bind {A B} (m : M A) (k : A -> M B) : M B :=
  fun h => match m h with
           | Some (a, h') => k a h'
           | None => None
           end.

Definition panic {A} : M A := fun _ => None.

Definition load (p : pointer) : M PeerRecord :=
  fun h => match p with
           | Nil => None
           | Ref l => match h !! l with
                      | Some r => Some (r, h)
                      | None => None
                      end
           end.

Definition modify (p : pointer) (f : PeerRecord -> PeerRecord) : M unit :=
  fun h => match p with
           | Nil => None
           | Ref l => match h !! l with
                      | Some r => Some (tt, <[l := f r]> h)
                      | None => None
                      end
           end.

Definition alloc (r : PeerRecord) : M pointer :=
  fun h => let l := fresh (dom h) in Some (Ref l, <[l := r]> h).

Notation "x <- c1 ;; c2" := (bind c1 (fun x => c2))
  (at level 100, c1 at next level, right associativity).

(** ** The [record.Record] interface and the envelope *)

(** Modelled from the spec: the interface [record.Record] is declared
    outside this file.  Section 3: a record can serialise itself to bytes
    and can populate itself from bytes.  [R] is the receiver type. *)
Class Record (R : Type) : Type := {
  marshalRecord : R -> M (result bytes);
  unmarshalRecord : R -> bytes -> M (option error);
}.

(** Modelled from the spec: the struct [record.Envelope] is declared
    outside this file.  Section 3 lists its four fields. *)
Record Envelope : Type := mkEnvelope {
  PublicKey : PubKey;
  PayloadType : bytes;
  RawPayload : bytes;
  signature : bytes;
}.

(** What [record.go] needs from the envelope layer besides its
    constructor: the framing of the message that is signed, and the wire
    form of an envelope. *)
Class EnvelopeLib : Type := {
  signing_message : string -> bytes -> bytes -> bytes;
  Envelope_Marshal : Envelope -> result bytes;
}.

Context {envlib : EnvelopeLib}.

(** Modelled from the spec: [record.MakeEnvelopeWithRecord] is not in the
    file under study.  Section 4.2: serialise the record through its own
    capability and propagate its error, build the signing message from
    domain, payload type and raw payload, sign it with the private key,
    and return an envelope whose public key is derived from that key. *)
Definition MakeEnvelopeWithRecord {R} `{Record R} (privateKey : PrivKey)
    (domain : string) (payloadType : bytes) (rec : R) : M (result Envelope) :=
  payload <- marshalRecord rec ;;
  match payload with
  | Err e => ret (Err e)
  | Ok raw =>
      match PrivKey_Sign privateKey (signing_message domain payloadType raw) with
      | Err e => ret (Err e)
      | Ok sig =>
          ret (Ok {| PublicKey := GetPublic privateKey;
                     PayloadType := payloadType;
                     RawPayload := raw;
                     signature := sig |})
      end
  end.

(** ** Conversions between address slices and wire entries *)

(** The [for ... range] loops append to a slice that starts nil. *)
Definition addrsFromProtobuf (addrs : list PeerRecord_AddressInfo)
    : list Multiaddr :=
  fold_left
    (fun out addr =>
       match NewMultiaddrBytes (Multiaddr_bytes addr) with
       | Err _ => out
       | Ok a => out ++ [a]
       end)
    addrs [].

Definition addrsToProtobuf (addrs : list Multiaddr)
    : list PeerRecord_AddressInfo :=
  fold_left
    (fun out addr => out ++ [ {| Multiaddr_bytes := ma_Bytes addr |} ])
    addrs [].

(** ** Constructors and methods of [*PeerRecord] *)

(** The clock reading [time.Now().UnixNano()] is an argument. *)
Definition NewPeerRecord (unixNano : Z) : M pointer :=
  alloc {| PeerID := ID_zero; Addrs := []; Seq := TimestampSeq unixNano |}.

Definition PeerRecordFromAddrInfo (info : AddrInfo) (unixNano : Z)
    : M pointer :=
  rec <- NewPeerRecord unixNano ;;
  _ <- modify rec (set_PeerID (AddrInfo_ID info)) ;;
  _ <- modify rec (set_Addrs (AddrInfo_Addrs info)) ;;
  ret rec.

Definition UnmarshalRecord (r : pointer) (bs : bytes) : M (option error) :=
  match r with
  | Nil => ret (Some ErrNilReceiver)
  | Ref _ =>
      match proto_Unmarshal bs with
      | Err e => ret (Some e)
      | Ok msg =>
          match ID_UnmarshalBinary (PeerId msg) with
          | Err e => ret (Some e)
          | Ok id =>
              _ <- modify r (set_PeerID id) ;;
              _ <- modify r (set_Addrs (addrsFromProtobuf (Addresses msg))) ;;
              _ <- modify r (set_Seq (pb_Seq msg)) ;;
              ret None
          end
      end
  end.

Definition MarshalRecord (r : pointer) : M (result bytes) :=
  rv <- load r ;;
  match ID_MarshalBinary (PeerID rv) with
  | Err e => ret (Err e)
  | Ok idBytes =>
      let msg := {| PeerId := idBytes;
                    Addresses := addrsToProtobuf (Addrs rv);
                    pb_Seq := Seq rv |} in
      ret (proto_Marshal msg)
  end.

(** [*PeerRecord] implements [record.Record]. *)
#[export] Instance PeerRecord_Record : Record pointer := {
  marshalRecord := MarshalRecord;
  unmarshalRecord := UnmarshalRecord;
}.

Definition Sign (r : pointer) (privKey : PrivKey) : M (result Envelope) :=
  match IDFromPrivateKey privKey with
  | Err e => ret (Err e)
  | Ok p =>
      rv <- load r ;;
      if decide (p <> PeerID rv) then ret (Err ErrPeerIdMismatch)
      else MakeEnvelopeWithRecord privKey PeerRecordEnvelopeDomain
             PeerRecordEnvelopePayloadType r
  end.

Definition MarshalSigned (r : pointer) (privKey : PrivKey) : M (result bytes) :=
  env <- Sign r privKey ;;
  match env with
  | Err e => ret (Err e)
  | Ok env => ret (Envelope_Marshal env)
  end.

(** The loop of [Equal]: [i] ranges over the indices of [r.Addrs]; both
    slices are indexed at [i], and an index out of range panics. *)
Fixpoint Equal_loop (rAddrs otherAddrs : list Multiaddr) (indices : list nat)
    : M bool :=
  match indices with
  | [] => ret true
  | i :: rest =>
      match rAddrs !! i, otherAddrs !! i with
      | Some a, Some b =>
          if negb (ma_Equal a b) then ret false
          else Equal_loop rAddrs otherAddrs rest
      | _, _ => panic
      end
  end.

Definition Equal (r other : pointer) : M bool :=
  match other with
  | Nil => ret (bool_decide (r = Nil))
  | Ref _ =>
      rv <- load r ;;
      ov <- load other ;;
      if decide (PeerID rv <> PeerID ov) then ret false
      else if decide (Seq rv <> Seq ov) then ret false
      else if decide (length (Addrs rv) <> length (Addrs ov)) then ret false
      else Equal_loop (Addrs rv) (Addrs ov) (seq 0 (length (Addrs rv)))
  end.

(** ** The payload type registry and package initialisation *)

(** A value of interface type [record.Record]: a receiver together with
    the method table of its dynamic type. *)
Inductive Prototype : Type :=
  | AsRecord {R : Type} `{Record R} (v : R).

(** Modelled from the spec: the registry of section 4.1 is not in the file
    under study.  It maps a payload type tag to the prototype registered
    for it; registering a tag again replaces the earlier prototype, and
    looking up a tag that was never registered finds nothing. *)
Definition RegisterPayloadType (payloadType : bytes) (prototype : Prototype)
    (registry : gmap string Prototype) : gmap string Prototype :=
  <[String.string_of_list_byte payloadType := prototype]> registry.

(** Modelled from the spec: the lookup half of the registry of
    section 4.1. *)
Definition lookupPayloadType (payloadType : bytes)
    (registry : gmap string Prototype) : option Prototype :=
  registry !! String.string_of_list_byte payloadType.

(** [func init()]: allocates [&PeerRecord{}] and registers it. *)
Definition init (registry : gmap string Prototype)
    : M (gmap string Prototype) :=
  prototype <- alloc PeerRecord_zero ;;
  ret (RegisterPayloadType PeerRecordEnvelopePayloadType
         (AsRecord prototype) registry).

(** ** Vocabulary for the statements *)

(** What decoding keeps of one wire entry: the address it parses to, if
    it parses. *)
Definition parse_entry (e : PeerRecord_AddressInfo) : option Multiaddr :=
  match NewMultiaddrBytes (Multiaddr_bytes e) with
  | Ok a => Some a
  | Err _ => None
  end.

(** The relation the loop of [Equal] decides. *)
Definition addrs_pairwise_equal (xs ys : list Multiaddr) : Prop :=
  Forall2 (fun a b => ma_Equal a b = true) xs ys.

(** An address is well formed when its byte encoding parses back as an
    address. *)
Definition well_formed_addr (a : Multiaddr) : bool :=
  is_Ok (NewMultiaddrBytes (ma_Bytes a)).

(** A law of the address package, stated apart from well-formedness: the
    address parsed from the encoding of an address is [Equal] to it. *)
Definition parsed_address_is_Equal : Prop :=
  forall a a', NewMultiaddrBytes (ma_Bytes a) = Ok a' -> ma_Equal a' a = true.

(** The wire message [MarshalRecord] builds for a record whose identity
    encodes to [idBytes]. *)
Definition message_of (idBytes : bytes) (rv : PeerRecord) : pb_PeerRecord :=
  {| PeerId := idBytes;
     Addresses := addrsToProtobuf (Addrs rv);
     pb_Seq := Seq rv |}.

(** The collaborators invert each other at one point: the identity codec
    at an identity, the wire codec at a message. *)
Definition ID_codec_inverts (id : ID) : Prop :=
  forall b, ID_MarshalBinary id = Ok b -> ID_UnmarshalBinary b = Ok id.

Definition wire_codec_inverts (msg : pb_PeerRecord) : Prop :=
  forall b, proto_Marshal msg = Ok b -> proto_Unmarshal b = Ok msg.

(** A pointer an argument may hold: nil, or the address of a record. *)
Definition live (h : gmap positive PeerRecord) (p : pointer) : Prop :=
  match p with
  | Nil => True
  | Ref l => is_Some (h !! l)
  end.

(** The spec's words for [MarshalSigned]: sign, then marshal the
    envelope; an error of the first step is the result. *)
Definition signAndMarshal_spec (r : pointer) (privateKey : PrivKey)
    : M (result bytes) :=
  fun h =>
    match Sign r privateKey h with
    | Some (Ok env, h') => Some (Envelope_Marshal env, h')
    | Some (Err e, h') => Some (Err e, h')
    | None => None
    end.

(** Decoding through a registered prototype: the [UnmarshalRecord] of its
    dynamic type, applied to it. *)
Definition Prototype_unmarshal (p : Prototype) (bs : bytes)
    : M (option error) :=
  match p with
  | AsRecord v => unmarshalRecord v bs
  end.

End PeerRecords.

(** * A reference instantiation of the imported packages

    Small executable stand-ins for the packages [record.go] imports, so
    that the methods can be run on concrete records.  Identities are byte
    strings shaped like a multihash, addresses are sequences of ip4 and
    tcp components, the wire codec is the protobuf encoding of the message
    (length-delimited fields and varints). *)
Module Reference.

Import Byte.

Definition byte_of_N (n : N) : byte := default x00 (Byte.of_N n).

Definition bytes_eqb (a b : bytes) : bool :=
  bool_decide (map Byte.to_N a = map Byte.to_N b).

(** Unsigned varints: seven bits per byte, least significant group
    first, the top bit set on every byte but the last. *)
Fixpoint put_uvarint_fuel (fuel : nat) (n : N) : bytes :=
  match fuel with
  | O => []
  | S fuel' =>
      if (n <? 128)%N then [byte_of_N n]
      else byte_of_N (128 + n mod 128) :: put_uvarint_fuel fuel' (n / 128)
  end.

Definition put_uvarint (n : N) : bytes := put_uvarint_fuel 10 n.

Fixpoint get_uvarint (bs : bytes) : option (N * bytes) :=
  match bs with
  | [] => None
  | b :: rest =>
      let v := Byte.to_N b in
      if (v <? 128)%N then Some (v, rest)
      else match get_uvarint rest with
           | Some (hi, rest') => Some ((v - 128) + 128 * hi, rest')%N
           | None => None
           end
  end.

Definition put_field (tag : byte) (payload : bytes) : bytes :=
  tag :: put_uvarint (N.of_nat (length payload)) ++ payload.

Definition get_chunk (bs : bytes) : option (bytes * bytes) :=
  match get_uvarint bs with
  | Some (n, rest) =>
      let n := N.to_nat n in
      if decide (n <= length rest)%nat
      then Some (take n rest, drop n rest)
      else None
  | None => None
  end.

Definition encode_AddressInfo (e : PeerRecord_AddressInfo) : bytes :=
  match Multiaddr_bytes e with
  | [] => []
  | b => put_field x0a b
  end.

Definition encode_PeerRecord (msg : pb_PeerRecord) : bytes :=
  (match PeerId msg with [] => [] | b => put_field x0a b end)
  ++ (if decide (pb_Seq msg = 0) then []
      else x10 :: put_uvarint (Z.to_N (pb_Seq msg)))
  ++ flat_map (fun e => put_field x1a (encode_AddressInfo e)) (Addresses msg).

Definition decode_AddressInfo (bs : bytes) : option PeerRecord_AddressInfo :=
  match bs with
  | [] => Some {| Multiaddr_bytes := [] |}
  | tag :: rest =>
      if Byte.eqb tag x0a then
        match get_chunk rest with
        | Some (b, []) => Some {| Multiaddr_bytes := b |}
        | _ => None
        end
      else None
  end.

Fixpoint decode_fields (fuel : nat) (bs : bytes) (msg : pb_PeerRecord)
    : option pb_PeerRecord :=
  match fuel with
  | O => None
  | S fuel' =>
      match bs with
      | [] => Some msg
      | tag :: rest =>
          if Byte.eqb tag x0a then
            match get_chunk rest with
            | Some (b, rest') =>
                decode_fields fuel' rest'
                  {| PeerId := b; Addresses := Addresses msg;
                     pb_Seq := pb_Seq msg |}
            | None => None
            end
          else if Byte.eqb tag x10 then
            match get_uvarint rest with
            | Some (n, rest') =>
                decode_fields fuel' rest'
                  {| PeerId := PeerId msg; Addresses := Addresses msg;
                     pb_Seq := Z.of_N n |}
            | None => None
            end
          else if Byte.eqb tag x1a then
            match get_chunk rest with
            | Some (b, rest') =>
                match decode_AddressInfo b with
                | Some e =>
                    decode_fields fuel' rest'
                      {| PeerId := PeerId msg;
                         Addresses := Addresses msg ++ [e];
                         pb_Seq := pb_Seq msg |}
                | None => None
                end
            | None => None
            end
          else None
      end
  end.

Definition decode_PeerRecord (bs : bytes) : result pb_PeerRecord :=
  match decode_fields (S (length bs)) bs
          {| PeerId := []; Addresses := []; pb_Seq := 0 |} with
  | Some msg => Ok msg
  | None => Err (ErrExternal "proto: malformed PeerRecord")
  end.

#[export] Instance codec : ProtoCodec := {
  proto_Marshal msg := Ok (encode_PeerRecord msg);
  proto_Unmarshal := decode_PeerRecord;
}.

(** Identities: a hash code, a length byte, and a digest of that
    length.  Encoding never fails; decoding checks the shape. *)
Definition multihash_shaped (b : bytes) : bool :=
  match b with
  | _ :: len :: digest => bool_decide (Byte.to_nat len = length digest)
  | _ => false
  end.

#[export] Instance peerid : PeerIDLib := {
  ID := string;
  ID_zero := "";
  ID_MarshalBinary id := Ok (String.list_byte_of_string id);
  ID_UnmarshalBinary b :=
    if multihash_shaped b then Ok (String.string_of_list_byte b)
    else Err (ErrExternal "multihash too short");
}.

(** Keys: one byte; the public key is the same byte, the identity is its
    identity multihash, and a signature is the key followed by the
    message reversed. *)
#[export] Instance crypto : CryptoLib := {
  PrivKey := byte;
  PubKey := byte;
  GetPublic k := k;
  PrivKey_Sign k msg := Ok (k :: rev msg);
  IDFromPrivateKey k := Ok (String.string_of_list_byte [x00; x01; k]);
}.

(** Addresses: a non-empty sequence of [/ip4] (code 4, four bytes) and
    [/tcp] (code 6, two bytes) components; equality is equality of the
    encodings. *)
Fixpoint valid_components (b : bytes) : bool :=
  match b with
  | [] => true
  | x04 :: _ :: _ :: _ :: _ :: rest => valid_components rest
  | x06 :: _ :: _ :: rest => valid_components rest
  | _ => false
  end.

#[export] Instance multiaddr : MultiaddrLib := {
  Multiaddr := bytes;
  ma_Bytes a := a;
  NewMultiaddrBytes b :=
    match b with
    | [] => Err (ErrExternal "empty multiaddr")
    | _ => if valid_components b then Ok b
           else Err (ErrExternal "invalid multiaddr")
    end;
  ma_Equal := bytes_eqb;
}.

#[export] Instance envelope : EnvelopeLib := {
  signing_message domain payloadType payload :=
    let d := String.list_byte_of_string domain in
    put_uvarint (N.of_nat (length d)) ++ d
    ++ put_uvarint (N.of_nat (length payloadType)) ++ payloadType
    ++ put_uvarint (N.of_nat (length payload)) ++ payload;
  Envelope_Marshal env :=
    Ok (put_field x0a [PublicKey env] ++ put_field x12 (PayloadType env)
        ++ put_field x1a (RawPayload env) ++ put_field x2a (signature env));
}.

(** Peer X of the spec's scenario: address [/ip4/1.2.3.4/tcp/4001],
    sequence number 1000, identity derived from key [x58].  Key [x59] is
    someone else's. *)
Definition keyX : PrivKey := x58.
Definition keyY : PrivKey := x59.
Definition addrX : Multiaddr := [x04; x01; x02; x03; x04; x06; x0f; xa1].
Definition peerX : PeerRecord :=
  {| PeerID := String.string_of_list_byte [x00; x01; x58];
     Addrs := [addrX];
     Seq := 1000 |}.

(** A heap with peer X at address 1 and a blank record at address 2. *)
Definition heapX : gmap positive PeerRecord :=
  <[2%positive := PeerRecord_zero]> (<[1%positive := peerX]> ∅).

(** The wire form of peer X and the envelope key X signs over it. *)
Definition msgX : pb_PeerRecord :=
  {| PeerId := [x00; x01; x58];
     Addresses := [ {| Multiaddr_bytes := addrX |} ];
     pb_Seq := 1000 |}.

Definition bytesX : bytes :=
  [x0a; x03; x00; x01; x58; x10; xe8; x07;
   x1a; x0a; x0a; x08; x04; x01; x02; x03; x04; x06; x0f; xa1].

Definition envX : Envelope :=
  {| PublicKey := x58;
     PayloadType := String.list_byte_of_string "/libp2p/peer-record";
     RawPayload := bytesX;
     signature :=
       x58 :: rev (signing_message "libp2p-peer-record"
                     (String.list_byte_of_string "/libp2p/peer-record")
                     bytesX) |}.

(** A message with an entry that is no address between two that are:
    [/ip4/1.2.3.4/tcp/4001], two stray bytes, [/ip4/10.0.0.1]. *)
Definition msgMixed : pb_PeerRecord :=
  {| PeerId := [x00; x01; x58];
     Addresses := [ {| Multiaddr_bytes := addrX |};
                    {| Multiaddr_bytes := [xff; x00] |};
                    {| Multiaddr_bytes := [x04; x0a; x00; x00; x01] |} ];
     pb_Seq := 7 |}.

Definition bytesMixed : bytes := encode_PeerRecord msgMixed.

(** A well-formed wire message whose identity bytes are no multihash. *)
Definition bytesBadID : bytes := [x0a; x01; x00; x10; x05].

(** Peer X once more, at address 3 of a larger heap. *)
Definition heapXX : gmap positive PeerRecord :=
  <[3%positive := peerX]> heapX.

(** A record one of whose addresses has an encoding that does not parse,
    on a heap with a blank record beside it, and its wire form. *)
Definition peerBad : PeerRecord :=
  {| PeerID := String.string_of_list_byte [x00; x01; x58];
     Addrs := [addrX; [xff]];
     Seq := 5 |}.

Definition heapBad : gmap positive PeerRecord :=
  <[2%positive := PeerRecord_zero]> (<[1%positive := peerBad]> ∅).

Definition bytesBad : bytes :=
  encode_PeerRecord
    {| PeerId := [x00; x01; x58];
       Addresses := [ {| Multiaddr_bytes := addrX |};
                      {| Multiaddr_bytes := [xff] |} ];
       pb_Seq := 5 |}.

(** Peer X a third time, at address 4. *)
Definition heapXXX : gmap positive PeerRecord :=
  <[4%positive := peerX]> heapXX.

(** A record as [NewPeerRecord] leaves it (no identity yet, no
    addresses, a sequence number), on a heap with a blank record beside
    it. *)
Definition peerNew : PeerRecord :=
  {| PeerID := ID_zero; Addrs := []; Seq := 1000 |}.

Definition heapNew : gmap positive PeerRecord :=
  <[2%positive := PeerRecord_zero]> (<[1%positive := peerNew]> ∅).

(** What peer X would pass to [PeerRecordFromAddrInfo]. *)
Definition infoX : AddrInfo :=
  {| AddrInfo_ID := String.string_of_list_byte [x00; x01; x58];
     AddrInfo_Addrs := [addrX] |}.

End Reference.

(** A second key package, in which no identity can be derived from the
    key [x00]. *)
Module FailingKeys.

Import Byte.

Definition crypto : @CryptoLib Reference.peerid := {|
  PrivKey := byte;
  PubKey := byte;
  GetPublic k := k;
  PrivKey_Sign k msg := Ok (k :: rev msg);
  IDFromPrivateKey k :=
    if Byte.eqb k x00 then Err (ErrExternal "invalid private key")
    else Ok (String.string_of_list_byte [x00; x01; k] : @ID Reference.peerid);
|}.

Definition envelope : @EnvelopeLib Reference.peerid crypto := {|
  signing_message domain payloadType payload := payload;
  Envelope_Marshal env := Ok [];
|}.

Definition badKey : @PrivKey Reference.peerid crypto := x00.

End FailingKeys.

Section Properties.

Context {idlib : PeerIDLib} {cryptolib : CryptoLib} {malib : MultiaddrLib}
  {wirelib : ProtoCodec} {envlib : EnvelopeLib}.

(** ** Basic facts about the loops *)

Lemma addrsFromProtobuf_acc (addrs : list PeerRecord_AddressInfo)
    (out : list Multiaddr) :
  fold_left
    (fun out addr =>
       match NewMultiaddrBytes (Multiaddr_bytes addr) with
       | Err _ => out
       | Ok a => out ++ [a]
       end) addrs out
  = out ++ omap parse_entry addrs.
Proof.
  revert out. induction addrs as [|e addrs IH]; intros out; simpl.
  - by rewrite app_nil_r.
  - rewrite IH. unfold parse_entry at 2.
    destruct (NewMultiaddrBytes (Multiaddr_bytes e)); simpl; [|done].
    by rewrite <- app_assoc.
Qed.

Lemma addrsFromProtobuf_omap (addrs : list PeerRecord_AddressInfo) :
  addrsFromProtobuf addrs = omap parse_entry addrs.
Proof. unfold addrsFromProtobuf. by rewrite addrsFromProtobuf_acc. Qed.

Lemma addrsToProtobuf_acc (addrs : list Multiaddr)
    (out : list PeerRecord_AddressInfo) :
  fold_left
    (fun out addr => out ++ [ {| Multiaddr_bytes := ma_Bytes addr |} ])
    addrs out
  = out ++ map (fun a => {| Multiaddr_bytes := ma_Bytes a |}) addrs.
Proof.
  revert out. induction addrs as [|a addrs IH]; intros out; simpl.
  - by rewrite app_nil_r.
  - rewrite IH. by rewrite <- app_assoc.
Qed.

Lemma addrsToProtobuf_map (addrs : list Multiaddr) :
  addrsToProtobuf addrs
  = map (fun a => {| Multiaddr_bytes := ma_Bytes a |}) addrs.
Proof. unfold addrsToProtobuf. by rewrite addrsToProtobuf_acc. Qed.

Lemma Equal_loop_from (xs ys : list Multiaddr) (n k : nat) h :
  length xs = length ys ->
  (k + n)%nat = length xs ->
  exists b : bool,
    Equal_loop xs ys (seq k n) h = Some (b, h) /\
    (b = true <-> addrs_pairwise_equal (drop k xs) (drop k ys)).
Proof.
  intros Hlen. revert k. induction n as [|n IH]; intros k Hk; simpl.
  - exists true. split; [done|].
    rewrite !drop_ge by lia. unfold addrs_pairwise_equal.
    split; [constructor | done].
  - destruct (lookup_lt_is_Some_2 xs k) as [a Ha]; [lia|].
    destruct (lookup_lt_is_Some_2 ys k) as [b Hb]; [lia|].
    rewrite Ha, Hb.
    rewrite (drop_S _ _ _ Ha), (drop_S _ _ _ Hb).
    unfold addrs_pairwise_equal in *.
    destruct (ma_Equal a b) eqn:Hab; simpl.
    + destruct (IH (S k)) as (res & Hrun & Hres); [lia|].
      exists res. split; [done|]. rewrite Hres.
      rewrite Forall2_cons. tauto.
    + exists false. split; [done|]. rewrite Forall2_cons.
      split; [done|]. intros [Heq _]. congruence.
Qed.

Lemma Equal_loop_spec (xs ys : list Multiaddr) h :
  length xs = length ys ->
  exists b : bool,
    Equal_loop xs ys (seq 0 (length xs)) h = Some (b, h) /\
    (b = true <-> addrs_pairwise_equal xs ys).
Proof.
  intros Hlen.
  destruct (Equal_loop_from xs ys (length xs) 0 h Hlen) as (b & ? & ?);
    [done|].
  exists b. by rewrite !drop_0 in *.
Qed.

End Properties.

Section Claims.

Context {idlib : PeerIDLib} {cryptolib : CryptoLib} {malib : MultiaddrLib}
  {wirelib : ProtoCodec} {envlib : EnvelopeLib}.

Implicit Types (h : gmap positive PeerRecord) (l : positive)
  (r other : pointer) (rv ov : PeerRecord) (bs : bytes).

(** *** Running the methods on a live receiver *)

Lemma UnmarshalRecord_run l rv bs h :
  h !! l = Some rv ->
  UnmarshalRecord (Ref l) bs h =
    match proto_Unmarshal bs with
    | Err e => Some (Some e, h)
    | Ok msg =>
        match ID_UnmarshalBinary (PeerId msg) with
        | Err e => Some (Some e, h)
        | Ok id =>
            Some (None,
                  <[l := {| PeerID := id;
                            Addrs := addrsFromProtobuf (Addresses msg);
                            Seq := pb_Seq msg |}]> h)
        end
    end.
Proof.
  intros Hl. unfold UnmarshalRecord.
  destruct (proto_Unmarshal bs) as [msg|e]; [|done].
  destruct (ID_UnmarshalBinary (PeerId msg)) as [id|e]; [|done].
  unfold bind, modify, ret. rewrite Hl.
  rewrite lookup_insert_eq, insert_insert_eq.
  rewrite lookup_insert_eq, insert_insert_eq.
  done.
Qed.

Lemma MarshalRecord_run l rv h :
  h !! l = Some rv ->
  MarshalRecord (Ref l) h =
    match ID_MarshalBinary (PeerID rv) with
    | Err e => Some (Err e, h)
    | Ok idBytes => Some (proto_Marshal (message_of idBytes rv), h)
    end.
Proof.
  intros Hl. unfold MarshalRecord, bind, load, ret. rewrite Hl.
  by destruct (ID_MarshalBinary (PeerID rv)).
Qed.

Lemma MakeEnvelopeWithRecord_run l rv k domain payloadType h :
  h !! l = Some rv ->
  MakeEnvelopeWithRecord k domain payloadType (Ref l) h =
    match MarshalRecord (Ref l) h with
    | Some (Ok raw, _) =>
        match PrivKey_Sign k (signing_message domain payloadType raw) with
        | Ok sig =>
            Some (Ok {| PublicKey := GetPublic k;
                        PayloadType := payloadType;
                        RawPayload := raw;
                        signature := sig |}, h)
        | Err e => Some (Err e, h)
        end
    | Some (Err e, _) => Some (Err e, h)
    | None => None
    end.
Proof.
  intros Hl. unfold MakeEnvelopeWithRecord, bind. simpl.
  rewrite (MarshalRecord_run l rv h Hl).
  destruct (ID_MarshalBinary (PeerID rv)) as [idBytes|e]; [|done].
  destruct (proto_Marshal (message_of idBytes rv)) as [raw|e]; [|done].
  by destruct (PrivKey_Sign k (signing_message domain payloadType raw)).
Qed.

Lemma Sign_run l rv k h :
  h !! l = Some rv ->
  Sign (Ref l) k h =
    match IDFromPrivateKey k with
    | Err e => Some (Err e, h)
    | Ok p =>
        if decide (p = PeerID rv)
        then MakeEnvelopeWithRecord k PeerRecordEnvelopeDomain
               PeerRecordEnvelopePayloadType (Ref l) h
        else Some (Err ErrPeerIdMismatch, h)
    end.
Proof.
  intros Hl. unfold Sign.
  destruct (IDFromPrivateKey k) as [p|e]; [|done].
  unfold bind, load, ret. rewrite Hl.
  destruct (decide (p <> PeerID rv)), (decide (p = PeerID rv)); done.
Qed.

(** *** Decoding *)

(** C7. Whatever the input bytes, [UnmarshalRecord] called on a nil
    receiver returns the nil-receiver error: it neither decodes nor
    panics, and the heap is as it was. *)
Theorem UnmarshalRecord_nil_receiver bs h :
  UnmarshalRecord Nil bs h = Some (Some ErrNilReceiver, h) /\
  Error ErrNilReceiver = "cannot unmarshal PeerRecord to nil receiver".
Proof. split; reflexivity. Qed.

(** C10. [UnmarshalRecord] is atomic on failure: when it returns an error
    on a live receiver, the heap is the one before the call, so the
    receiver still holds the same [PeerID], [Addrs] and [Seq]. *)
Theorem UnmarshalRecord_failure_atomic l rv bs h e h' :
  h !! l = Some rv ->
  UnmarshalRecord (Ref l) bs h = Some (Some e, h') ->
  h' = h /\ h' !! l = Some rv.
Proof.
  intros Hl Hrun. rewrite (UnmarshalRecord_run l rv bs h Hl) in Hrun.
  destruct (proto_Unmarshal bs) as [msg|e1].
  - destruct (ID_UnmarshalBinary (PeerId msg)) as [id|e2].
    + discriminate.
    + by injection Hrun as _ <-.
  - by injection Hrun as _ <-.
Qed.

(** C3. On a live receiver [UnmarshalRecord] returns an error exactly
    when the wire message does not decode or the identity bytes in it do
    not decode, and the error is that collaborator's.  Otherwise it
    succeeds whatever the address entries are: the receiver ends up with
    the decoded identity and sequence number, and with the addresses of
    the entries that parse, in their original order, the others being
    dropped. *)
Theorem UnmarshalRecord_lenient l rv bs h :
  h !! l = Some rv ->
  (forall e,
     (exists h', UnmarshalRecord (Ref l) bs h = Some (Some e, h')) <->
     (proto_Unmarshal bs = Err e \/
      exists msg, proto_Unmarshal bs = Ok msg /\
                  ID_UnmarshalBinary (PeerId msg) = Err e)) /\
  (forall msg id,
     proto_Unmarshal bs = Ok msg ->
     ID_UnmarshalBinary (PeerId msg) = Ok id ->
     UnmarshalRecord (Ref l) bs h =
       Some (None,
             <[l := {| PeerID := id;
                       Addrs := omap parse_entry (Addresses msg);
                       Seq := pb_Seq msg |}]> h)).
Proof.
  intros Hl. rewrite (UnmarshalRecord_run l rv bs h Hl). split.
  - intros e. split.
    + intros [h' Hrun].
      destruct (proto_Unmarshal bs) as [msg|e1].
      * right. exists msg. split; [done|].
        destruct (ID_UnmarshalBinary (PeerId msg)); [done|].
        by injection Hrun as -> _.
      * left. by injection Hrun as -> _.
    + intros [Hwire | (msg & Hwire & Hid)]; rewrite Hwire.
      * by exists h.
      * rewrite Hid. by exists h.
  - intros msg id Hwire Hid.
    by rewrite Hwire, Hid, addrsFromProtobuf_omap.
Qed.

(** *** Equality *)

Lemma Equal_run l1 l2 rv ov h :
  h !! l1 = Some rv ->
  h !! l2 = Some ov ->
  exists b : bool,
    Equal (Ref l1) (Ref l2) h = Some (b, h) /\
    (b = true <->
     PeerID rv = PeerID ov /\ Seq rv = Seq ov /\
     addrs_pairwise_equal (Addrs rv) (Addrs ov)).
Proof.
  intros Hr Ho. unfold Equal, bind, load, ret. rewrite Hr, Ho.
  destruct (decide (PeerID rv <> PeerID ov)) as [Hid|Hid].
  { exists false. split; [done|]. split; [done|]. by intros [? _]. }
  destruct (decide (Seq rv <> Seq ov)) as [Hseq|Hseq].
  { exists false. split; [done|]. split; [done|]. by intros (_ & ? & _). }
  destruct (decide (length (Addrs rv) <> length (Addrs ov))) as [Hlen|Hlen].
  { exists false. split; [done|]. split; [done|].
    intros (_ & _ & Hall). by apply Forall2_length in Hall. }
  apply dec_stable in Hid. apply dec_stable in Hseq. apply dec_stable in Hlen.
  destruct (Equal_loop_spec (Addrs rv) (Addrs ov) h Hlen) as (b & Hrun & Hb).
  exists b. split; [done|]. rewrite Hb. tauto.
Qed.

(** C4. For two records on the heap (the same one or not), [Equal]
    returns, does not touch the heap, and answers true exactly when the
    identities are equal, the sequence numbers are equal, the address
    slices have the same length, and at every index the receiver's address
    is [Equal] to the argument's.  With a nil argument the answer is
    whether the receiver is nil too; no call with exactly one nil side
    answers true (a nil receiver with a non-nil argument panics on the
    first field read). *)
Theorem Equal_structural h :
  (forall l1 l2 rv ov,
     h !! l1 = Some rv ->
     h !! l2 = Some ov ->
     exists b : bool,
       Equal (Ref l1) (Ref l2) h = Some (b, h) /\
       (b = true <->
        PeerID rv = PeerID ov /\ Seq rv = Seq ov /\
        length (Addrs rv) = length (Addrs ov) /\
        forall (i : nat) a b,
          Addrs rv !! i = Some a -> Addrs ov !! i = Some b ->
          ma_Equal a b = true)) /\
  Equal Nil Nil h = Some (true, h) /\
  (forall l, Equal (Ref l) Nil h = Some (false, h)) /\
  (forall l, Equal Nil (Ref l) h = None) /\
  (forall r other h',
     Equal r other h = Some (true, h') -> (r = Nil <-> other = Nil)).
Proof.
  split; [|repeat split].
  - intros l1 l2 rv ov Hr Ho.
    destruct (Equal_run l1 l2 rv ov h Hr Ho) as (b & Hrun & Hb).
    exists b. split; [done|]. rewrite Hb.
    unfold addrs_pairwise_equal. rewrite Forall2_same_length_lookup. tauto.
  - destruct other as [|l2]; [done|]. intros ->. discriminate.
  - destruct r as [|l1]; [done|]. intros ->. discriminate.
Qed.

(** *** Signing *)

Lemma MakeEnvelopeWithRecord_returns l rv k domain payloadType h :
  h !! l = Some rv ->
  exists v, MakeEnvelopeWithRecord k domain payloadType (Ref l) h = Some (v, h).
Proof.
  intros Hl. rewrite (MakeEnvelopeWithRecord_run l rv k _ _ h Hl).
  rewrite (MarshalRecord_run l rv h Hl).
  destruct (ID_MarshalBinary (PeerID rv)) as [idBytes|e]; [|by eexists].
  destruct (proto_Marshal (message_of idBytes rv)) as [raw|e]; [|by eexists].
  destruct (PrivKey_Sign k (signing_message domain payloadType raw));
    by eexists.
Qed.

Lemma Sign_returns l rv k h :
  h !! l = Some rv -> exists v, Sign (Ref l) k h = Some (v, h).
Proof.
  intros Hl. rewrite (Sign_run l rv k h Hl).
  destruct (IDFromPrivateKey k) as [p|e]; [|by eexists].
  destruct (decide (p = PeerID rv)); [|by eexists].
  by apply (MakeEnvelopeWithRecord_returns l rv).
Qed.

(** C1. On a live record, [Sign] returns [ErrPeerIdMismatch] whenever the
    identity derived from the key differs from the record's [PeerID]; and
    whenever [Sign] does return an envelope, the identity derived from
    the key is the record's [PeerID]. *)
Theorem Sign_identity_enforced l rv k h :
  h !! l = Some rv ->
  (forall p,
     IDFromPrivateKey k = Ok p -> p <> PeerID rv ->
     Sign (Ref l) k h = Some (Err ErrPeerIdMismatch, h)) /\
  (forall env h',
     Sign (Ref l) k h = Some (Ok env, h') ->
     IDFromPrivateKey k = Ok (PeerID rv)).
Proof.
  intros Hl. rewrite (Sign_run l rv k h Hl). split.
  - intros p -> Hne. by destruct (decide (p = PeerID rv)).
  - intros env h'.
    destruct (IDFromPrivateKey k) as [p|e]; [|done].
    destruct (decide (p = PeerID rv)) as [->|]; done.
Qed.

(** C6. Every envelope [Sign] returns was built by the envelope
    constructor at the domain ["libp2p-peer-record"] and the payload type
    ["/libp2p/peer-record"]: its payload type is that tag, its payload is
    the record's serialisation, and its signature is the key's signature
    over the signing message framed from that domain, that tag and the
    payload.  The domain string is ASCII. *)
Theorem Sign_fixed_domain_and_type l rv k h env h' :
  h !! l = Some rv ->
  Sign (Ref l) k h = Some (Ok env, h') ->
  forallb (fun c => (Byte.to_N c <? 128)%N)
    (String.list_byte_of_string PeerRecordEnvelopeDomain) = true /\
  MakeEnvelopeWithRecord k "libp2p-peer-record"
    (String.list_byte_of_string "/libp2p/peer-record") (Ref l) h
  = Some (Ok env, h') /\
  PayloadType env = String.list_byte_of_string "/libp2p/peer-record" /\
  exists raw,
    MarshalRecord (Ref l) h = Some (Ok raw, h) /\
    RawPayload env = raw /\
    PrivKey_Sign k
      (signing_message "libp2p-peer-record"
         (String.list_byte_of_string "/libp2p/peer-record") raw)
    = Ok (signature env).
Proof.
  intros Hl Hsign. split; [reflexivity|].
  rewrite (Sign_run l rv k h Hl) in Hsign.
  destruct (IDFromPrivateKey k) as [p|e]; [|done].
  destruct (decide (p = PeerID rv)) as [->|]; [|done].
  split; [exact Hsign|].
  rewrite (MakeEnvelopeWithRecord_run l rv k _ _ h Hl) in Hsign.
  destruct (MarshalRecord (Ref l) h) as [[[raw|e] h1]|] eqn:Hm; [|done..].
  pose proof Hm as Hm'. rewrite (MarshalRecord_run l rv h Hl) in Hm'.
  assert (h1 = h) as ->.
  { destruct (ID_MarshalBinary (PeerID rv)); by injection Hm' as _ <-. }
  unfold PeerRecordEnvelopeDomain, PeerRecordEnvelopePayloadType in Hsign.
  destruct (PrivKey_Sign k _) as [sig|e] eqn:Hsig; [|done].
  injection Hsign as <- <-. simpl. split; [done|].
  exists raw. by rewrite Hsig.
Qed.

(** C5. [MarshalSigned] is [Sign] followed by the envelope's [Marshal]:
    when [Sign] returns an envelope the result is that envelope's
    marshalled form; when [Sign] returns an error the result is that
    error and no bytes; and when [Sign] panics so does [MarshalSigned]. *)
Theorem MarshalSigned_is_sign_then_marshal r k h :
  MarshalSigned r k h = signAndMarshal_spec r k h /\
  (forall env h',
     Sign r k h = Some (Ok env, h') ->
     MarshalSigned r k h = Some (Envelope_Marshal env, h')) /\
  (forall e h',
     Sign r k h = Some (Err e, h') ->
     MarshalSigned r k h = Some (Err e, h')).
Proof.
  unfold MarshalSigned, signAndMarshal_spec, bind, ret.
  destruct (Sign r k h) as [[[env|e] h1]|]; repeat split; congruence.
Qed.

(** *** Frame *)

(** C9. On a live receiver, [MarshalRecord], [Sign], [MarshalSigned] and
    [Equal] (against nil or any live record, the receiver included) all
    return, and the heap they return is the heap they were given: the
    receiver's [PeerID], [Addrs] and [Seq] are what they were, for every
    key and every argument. *)
Theorem readers_leave_records_unchanged l rv k other h :
  h !! l = Some rv ->
  live h other ->
  (exists v, MarshalRecord (Ref l) h = Some (v, h)) /\
  (exists v, Sign (Ref l) k h = Some (v, h)) /\
  (exists v, MarshalSigned (Ref l) k h = Some (v, h)) /\
  (exists b, Equal (Ref l) other h = Some (b, h)).
Proof.
  intros Hl Hother. repeat split.
  - rewrite (MarshalRecord_run l rv h Hl).
    destruct (ID_MarshalBinary (PeerID rv)); by eexists.
  - by apply (Sign_returns l rv).
  - unfold MarshalSigned, bind, ret.
    destruct (Sign_returns l rv k h Hl) as ([env|e] & ->); by eexists.
  - destruct other as [|l2]; [by eexists|].
    destruct Hother as [ov Ho].
    destruct (Equal_run l l2 rv ov h Hl Ho) as (b & -> & _). by eexists.
Qed.

(** *** Round trip *)

Lemma decode_encoded_addrs (addrs : list Multiaddr) :
  parsed_address_is_Equal ->
  forallb well_formed_addr addrs = true ->
  addrs_pairwise_equal
    (addrsFromProtobuf (addrsToProtobuf addrs)) addrs.
Proof.
  intros Hlaw. rewrite addrsToProtobuf_map, addrsFromProtobuf_omap.
  unfold addrs_pairwise_equal.
  induction addrs as [|a addrs IH]; simpl; [constructor|].
  rewrite andb_true_iff. intros [Ha Hrest].
  unfold well_formed_addr in Ha. unfold parse_entry at 1. simpl.
  destruct (NewMultiaddrBytes (ma_Bytes a)) as [a'|e] eqn:Hparse; [|done].
  constructor; [by apply Hlaw|]. by apply IH.
Qed.

(** C2, as amended.  Take a record whose identity the identity codec
    decodes back from its own encoding, and all of whose addresses are
    well formed (their encodings parse back), and the bytes
    [MarshalRecord] returns for it.  With the collaborators behaving as
    the spec assumes (the wire codec decodes what it encoded for this
    record, and an address parsed from an encoding is [Equal] to the
    address encoded), [UnmarshalRecord] of those bytes into another
    record succeeds, leaves the original as it was, and the decoded
    record is [Equal] to the original.  The condition on the identity is
    what the claim lacks: a record with well-formed addresses and an
    identity that does not decode marshals, but its bytes do not
    unmarshal. *)
Theorem MarshalRecord_UnmarshalRecord_roundtrip
    (src dst : positive) rv (dv : PeerRecord) bs h :
  parsed_address_is_Equal ->
  h !! src = Some rv ->
  h !! dst = Some dv ->
  src <> dst ->
  forallb well_formed_addr (Addrs rv) = true ->
  ID_codec_inverts (PeerID rv) ->
  (forall idBytes,
     ID_MarshalBinary (PeerID rv) = Ok idBytes ->
     wire_codec_inverts (message_of idBytes rv)) ->
  MarshalRecord (Ref src) h = Some (Ok bs, h) ->
  exists h',
    UnmarshalRecord (Ref dst) bs h = Some (None, h') /\
    h' !! src = Some rv /\
    Equal (Ref dst) (Ref src) h' = Some (true, h').
Proof.
  intros Hlaw Hsrc Hdst Hne Hwf Hid Hwire Hm.
  rewrite (MarshalRecord_run src rv h Hsrc) in Hm.
  destruct (ID_MarshalBinary (PeerID rv)) as [idBytes|e] eqn:HidB; [|done].
  injection Hm as Hm.
  rewrite (UnmarshalRecord_run dst dv bs h Hdst).
  rewrite (Hwire idBytes eq_refl bs Hm).
  cbn [message_of PeerId Addresses pb_Seq].
  rewrite (Hid idBytes HidB).
  set (decoded := {| PeerID := PeerID rv;
                     Addrs := addrsFromProtobuf (addrsToProtobuf (Addrs rv));
                     Seq := Seq rv |}).
  exists (<[dst := decoded]> h). split; [done|].
  assert (<[dst := decoded]> h !! src = Some rv) as Hsrc'.
  { by rewrite lookup_insert_ne. }
  split; [done|].
  destruct (Equal_run dst src decoded rv (<[dst := decoded]> h))
    as (b & Hrun & Hb); [apply lookup_insert_eq | done |].
  rewrite Hrun. f_equal. f_equal. apply Hb. simpl.
  split; [done|]. split; [done|]. by apply decode_encoded_addrs.
Qed.

(** *** Registration *)

(** C8. From any registry and heap, [init] allocates a blank record
    and returns a registry in which the tag ["/libp2p/peer-record"] maps
    to that record as a prototype.  Decoding through this prototype is
    the [UnmarshalRecord] of [*PeerRecord]: on bytes whose wire message
    and identity decode, it fills the prototype's record with the decoded
    fields. *)
Theorem init_registers_PeerRecord (registry : gmap string Prototype) h :
  exists l registry',
    h !! l = None /\
    init registry h = Some (registry', <[l := PeerRecord_zero]> h) /\
    lookupPayloadType (String.list_byte_of_string "/libp2p/peer-record")
      registry' = Some (AsRecord (Ref l)) /\
    forall bs msg id,
      proto_Unmarshal bs = Ok msg ->
      ID_UnmarshalBinary (PeerId msg) = Ok id ->
      Prototype_unmarshal (AsRecord (Ref l)) bs (<[l := PeerRecord_zero]> h)
      = Some (None,
              <[l := {| PeerID := id;
                        Addrs := omap parse_entry (Addresses msg);
                        Seq := pb_Seq msg |}]> h).
Proof.
  exists (fresh (dom h)). eexists. split; [|split; [reflexivity|split]].
  - apply not_elem_of_dom, is_fresh.
  - unfold lookupPayloadType, RegisterPayloadType,
      PeerRecordEnvelopePayloadType.
    apply lookup_insert_eq.
  - intros bs msg id Hwire Hid.
    cbn [Prototype_unmarshal unmarshalRecord PeerRecord_Record].
    rewrite (UnmarshalRecord_run _ PeerRecord_zero bs _
               (lookup_insert_eq _ _ _)).
    by rewrite Hwire, Hid, insert_insert_eq, addrsFromProtobuf_omap.
Qed.

End Claims.

(** * Further properties of the file *)

(** ** Sequence numbers from the clock *)

Lemma TimestampSeq_nonneg (n : Z) :
  0 <= n < 2 ^ 63 -> TimestampSeq n = n.
Proof. intros Hn. unfold TimestampSeq. apply Z.mod_small. lia. Qed.

Lemma TimestampSeq_neg (n : Z) :
  - 2 ^ 63 <= n < 0 -> TimestampSeq n = n + 2 ^ 64.
Proof.
  intros Hn. unfold TimestampSeq.
  rewrite <- (Z_mod_plus_full n 1 (2 ^ 64)).
  apply Z.mod_small. lia.
Qed.

(** X1. For a clock reading in the int64 range the sequence number is in
    the uint64 range; it is the reading itself when the reading is not
    negative, and the reading plus [2^64] when it is (a clock before the
    epoch wraps around to the top half of the range). *)
Theorem TimestampSeq_wraps (n : Z) :
  - 2 ^ 63 <= n < 2 ^ 63 ->
  0 <= TimestampSeq n < 2 ^ 64 /\
  (0 <= n -> TimestampSeq n = n) /\
  (n < 0 -> TimestampSeq n = n + 2 ^ 64).
Proof.
  intros Hn. split; [|split].
  - destruct (Z_lt_le_dec n 0).
    + rewrite TimestampSeq_neg by lia. lia.
    + rewrite TimestampSeq_nonneg by lia. lia.
  - intros. apply TimestampSeq_nonneg. lia.
  - intros. apply TimestampSeq_neg. lia.
Qed.

(** X2. Sequence numbers follow the clock as long as it stays on one side
    of the epoch: a later reading gives a greater number.  Across the
    epoch the order is reversed: every reading before it gives a greater
    number than every reading from it on. *)
Theorem TimestampSeq_order (a b : Z) :
  - 2 ^ 63 <= a < 2 ^ 63 ->
  - 2 ^ 63 <= b < 2 ^ 63 ->
  a < b ->
  (0 <= a \/ b < 0 -> TimestampSeq a < TimestampSeq b) /\
  (a < 0 <= b -> TimestampSeq b < TimestampSeq a).
Proof.
  intros Ha Hb Hab. split.
  - intros [Hpos|Hneg].
    + rewrite !TimestampSeq_nonneg by lia. lia.
    + rewrite !TimestampSeq_neg by lia. lia.
  - intros [Ha0 Hb0].
    rewrite (TimestampSeq_neg a), (TimestampSeq_nonneg b) by lia. lia.
Qed.

Section Extras.

Context {idlib : PeerIDLib} {cryptolib : CryptoLib} {malib : MultiaddrLib}
  {wirelib : ProtoCodec} {envlib : EnvelopeLib}.

Implicit Types (h : gmap positive PeerRecord) (l : positive)
  (r other : pointer) (rv ov : PeerRecord) (bs : bytes).

(** ** Constructors *)

Lemma alloc_fresh (v : PeerRecord) h :
  exists l,
    alloc v h = Some (Ref l, <[l := v]> h) /\
    h !! l = None.
Proof.
  exists (fresh (dom h)). split; [done|].
  apply not_elem_of_dom, is_fresh.
Qed.

(** X3. [NewPeerRecord] returns a pointer to a record that no existing
    pointer refers to; the record has the zero identity, no addresses and
    the sequence number of the clock reading, and every record that was
    on the heap is still there unchanged. *)
Theorem NewPeerRecord_fresh (unixNano : Z) h :
  exists l h',
    NewPeerRecord unixNano h = Some (Ref l, h') /\
    h !! l = None /\
    h' !! l = Some {| PeerID := ID_zero; Addrs := [];
                      Seq := TimestampSeq unixNano |} /\
    (forall l' rv, h !! l' = Some rv -> h' !! l' = Some rv).
Proof.
  unfold NewPeerRecord.
  destruct (alloc_fresh
              {| PeerID := ID_zero; Addrs := [];
                 Seq := TimestampSeq unixNano |} h) as (l & Hrun & Hfresh).
  exists l. eexists. split; [exact Hrun|]. split; [done|].
  split; [apply lookup_insert_eq|].
  intros l' rv Hl'. rewrite lookup_insert_ne; [done|]. congruence.
Qed.

Lemma PeerRecordFromAddrInfo_run (info : AddrInfo) (unixNano : Z) h :
  exists l,
    PeerRecordFromAddrInfo info unixNano h
    = Some (Ref l,
            <[l := {| PeerID := AddrInfo_ID info;
                      Addrs := AddrInfo_Addrs info;
                      Seq := TimestampSeq unixNano |}]> h) /\
    h !! l = None.
Proof.
  exists (fresh (dom h)). split; [|apply not_elem_of_dom, is_fresh].
  unfold PeerRecordFromAddrInfo, NewPeerRecord, bind, alloc, modify, ret.
  rewrite lookup_insert_eq, insert_insert_eq.
  rewrite lookup_insert_eq, insert_insert_eq.
  done.
Qed.

(** X4. [PeerRecordFromAddrInfo] returns a pointer to a fresh record that
    carries the identity and the addresses of its argument and the
    sequence number of the clock reading; every record that was on the
    heap is still there unchanged. *)
Theorem PeerRecordFromAddrInfo_fields (info : AddrInfo) (unixNano : Z) h :
  exists l h',
    PeerRecordFromAddrInfo info unixNano h = Some (Ref l, h') /\
    h !! l = None /\
    h' !! l = Some {| PeerID := AddrInfo_ID info;
                      Addrs := AddrInfo_Addrs info;
                      Seq := TimestampSeq unixNano |} /\
    (forall l' rv, h !! l' = Some rv -> h' !! l' = Some rv).
Proof.
  destruct (PeerRecordFromAddrInfo_run info unixNano h) as (l & Hrun & Hfresh).
  exists l. eexists. split; [exact Hrun|]. split; [done|].
  split; [apply lookup_insert_eq|].
  intros l' rv Hl'. rewrite lookup_insert_ne; [done|]. congruence.
Qed.

(** ** The two conversion loops *)


Lemma omap_length_le {A B} (f : A -> option B) (xs : list A) :
  (length (omap f xs) <= length xs)%nat.
Proof.
  induction xs as [|x xs IH]; csimpl; [lia|].
  destruct (f x); csimpl; lia.
Qed.

Lemma omap_length_eq {A B} (f : A -> option B) (xs : list A) :
  length (omap f xs) = length xs <-> Forall (fun x => is_Some (f x)) xs.
Proof.
  induction xs as [|x xs IH]; csimpl.
  - split; [constructor | done].
  - pose proof (omap_length_le f xs) as Hle.
    rewrite Forall_cons. destruct (f x) as [y|]; csimpl.
    + rewrite <- IH. split; [intros; split; [by eexists | lia] | lia].
    + split; [lia|]. intros [[y Hy] _]. discriminate.
Qed.

(** X6. [addrsFromProtobuf] never returns more addresses than it was
    given entries, and it returns as many exactly when every entry
    parses. *)
Theorem addrsFromProtobuf_length (entries : list PeerRecord_AddressInfo) :
  (length (addrsFromProtobuf entries) <= length entries)%nat /\
  (length (addrsFromProtobuf entries) = length entries <->
   Forall (fun e => is_Ok (NewMultiaddrBytes (Multiaddr_bytes e)) = true)
     entries).
Proof.
  rewrite addrsFromProtobuf_omap. split; [apply omap_length_le|].
  rewrite omap_length_eq. apply Forall_proper; [|done].
  intros e. unfold parse_entry.
  destruct (NewMultiaddrBytes (Multiaddr_bytes e)); simpl.
  - split; [done | by eexists].
  - split; [by intros [? ?] | done].
Qed.

(** X7. [addrsFromProtobuf] treats each entry on its own: the addresses
    of a concatenation are the addresses of the first part followed by
    those of the second, and an entry that does not parse contributes
    nothing wherever it stands. *)
Theorem addrsFromProtobuf_app (xs ys : list PeerRecord_AddressInfo) :
  addrsFromProtobuf (xs ++ ys) = addrsFromProtobuf xs ++ addrsFromProtobuf ys /\
  forall e,
    is_Ok (NewMultiaddrBytes (Multiaddr_bytes e)) = false ->
    addrsFromProtobuf (xs ++ e :: ys) = addrsFromProtobuf (xs ++ ys).
Proof.
  rewrite !addrsFromProtobuf_omap. split; [apply omap_app|].
  intros e He. rewrite !addrsFromProtobuf_omap, !omap_app. simpl.
  unfold parse_entry at 2.
  by destruct (NewMultiaddrBytes (Multiaddr_bytes e)).
Qed.

(** ** Decoding, once more *)

(** X8. A successful [UnmarshalRecord] writes the receiver and nothing
    else: every other record is unchanged, the receiver's new content
    does not depend on its old content, and decoding the same bytes into
    it a second time changes nothing. *)
Theorem UnmarshalRecord_overwrites l rv bs h h' :
  h !! l = Some rv ->
  UnmarshalRecord (Ref l) bs h = Some (None, h') ->
  (forall l', l' <> l -> h' !! l' = h !! l') /\
  (forall rv2, UnmarshalRecord (Ref l) bs (<[l := rv2]> h) = Some (None, h')) /\
  UnmarshalRecord (Ref l) bs h' = Some (None, h').
Proof.
  intros Hl Hrun. pose proof Hrun as Hrun0.
  rewrite (UnmarshalRecord_run l rv bs h Hl) in Hrun.
  destruct (proto_Unmarshal bs) as [msg|e] eqn:Hwire; [|done].
  destruct (ID_UnmarshalBinary (PeerId msg)) as [id|e] eqn:Hid; [|done].
  injection Hrun as <-. split; [|split].
  - intros l' Hne. by rewrite lookup_insert_ne.
  - intros rv2.
    rewrite (UnmarshalRecord_run l rv2 bs _ (lookup_insert_eq _ _ _)).
    by rewrite Hwire, Hid, insert_insert_eq.
  - rewrite (UnmarshalRecord_run l _ bs _ (lookup_insert_eq _ _ _)).
    by rewrite Hwire, Hid, insert_insert_eq.
Qed.

Lemma decoded_addrs_shorter (addrs : list Multiaddr) :
  forallb (fun a => is_Ok (NewMultiaddrBytes (ma_Bytes a))) addrs = false ->
  (length (addrsFromProtobuf (addrsToProtobuf addrs)) < length addrs)%nat.
Proof.
  rewrite addrsToProtobuf_map, addrsFromProtobuf_omap.
  induction addrs as [|a addrs IH]; csimpl; [done|].
  unfold parse_entry at 1. simpl.
  destruct (NewMultiaddrBytes (ma_Bytes a)) as [a'|e]; csimpl.
  - intros Hrest. apply IH in Hrest. lia.
  - intros _.
    pose proof (omap_length_le parse_entry
                  (map (fun a => {| Multiaddr_bytes := ma_Bytes a |}) addrs))
      as Hle.
    rewrite length_map in Hle. lia.
Qed.

(** X9. The other half of the round trip: when some address of a record
    has an encoding that does not parse, and the codecs decode what they
    encoded for this record, decoding the marshalled bytes still
    succeeds, but the decoded record has fewer addresses than the
    original and [Equal] answers false. *)
Theorem roundtrip_drops_unparsable
    (src dst : positive) rv (dv : PeerRecord) bs h :
  h !! src = Some rv ->
  h !! dst = Some dv ->
  src <> dst ->
  forallb (fun a => is_Ok (NewMultiaddrBytes (ma_Bytes a))) (Addrs rv)
  = false ->
  ID_codec_inverts (PeerID rv) ->
  (forall idBytes,
     ID_MarshalBinary (PeerID rv) = Ok idBytes ->
     wire_codec_inverts (message_of idBytes rv)) ->
  MarshalRecord (Ref src) h = Some (Ok bs, h) ->
  exists h' dv',
    UnmarshalRecord (Ref dst) bs h = Some (None, h') /\
    h' !! dst = Some dv' /\
    (length (Addrs dv') < length (Addrs rv))%nat /\
    Equal (Ref dst) (Ref src) h' = Some (false, h').
Proof.
  intros Hsrc Hdst Hne Hbad Hid Hwire Hm.
  rewrite (MarshalRecord_run src rv h Hsrc) in Hm.
  destruct (ID_MarshalBinary (PeerID rv)) as [idBytes|e] eqn:HidB; [|done].
  injection Hm as Hm.
  rewrite (UnmarshalRecord_run dst dv bs h Hdst).
  rewrite (Hwire idBytes eq_refl bs Hm).
  cbn [message_of PeerId Addresses pb_Seq].
  rewrite (Hid idBytes HidB).
  set (decoded := {| PeerID := PeerID rv;
                     Addrs := addrsFromProtobuf (addrsToProtobuf (Addrs rv));
                     Seq := Seq rv |}).
  assert (length (Addrs decoded) < length (Addrs rv))%nat as Hshort.
  { by apply decoded_addrs_shorter. }
  exists (<[dst := decoded]> h), decoded. split; [done|].
  split; [apply lookup_insert_eq|]. split; [exact Hshort|].
  destruct (Equal_run dst src decoded rv (<[dst := decoded]> h))
    as (b & Hrun & Hb).
  { apply lookup_insert_eq. }
  { by rewrite lookup_insert_ne. }
  rewrite Hrun. destruct b; [|done].
  destruct Hb as [Hb _]. destruct (Hb eq_refl) as (_ & _ & Hall).
  apply Forall2_length in Hall. lia.
Qed.

(** ** Signing, once more *)

(** X10. [Sign] consults the key before the receiver.  When the identity
    cannot be derived from the key, [Sign] and [MarshalSigned] return
    that error for every receiver, nil included, and leave the heap
    alone.  When it can, a nil receiver makes both panic, as it does
    [MarshalRecord]. *)
Theorem Sign_key_error_first (k : PrivKey) h :
  (forall e,
     IDFromPrivateKey k = Err e ->
     forall r,
       Sign r k h = Some (Err e, h) /\
       MarshalSigned r k h = Some (Err e, h)) /\
  (forall p,
     IDFromPrivateKey k = Ok p ->
     Sign Nil k h = None /\ MarshalSigned Nil k h = None) /\
  MarshalRecord Nil h = None.
Proof.
  split; [|split; [|done]].
  - intros e He r. unfold MarshalSigned, bind, Sign. by rewrite He.
  - intros p Hp. unfold MarshalSigned, bind, Sign. by rewrite Hp.
Qed.

(** X11. [MarshalSigned] with a key whose identity is not the record's
    returns [ErrPeerIdMismatch] and no bytes, and leaves the heap
    alone. *)
Theorem MarshalSigned_identity_mismatch l rv (k : PrivKey) (p : ID) h :
  h !! l = Some rv ->
  IDFromPrivateKey k = Ok p ->
  p <> PeerID rv ->
  MarshalSigned (Ref l) k h = Some (Err ErrPeerIdMismatch, h).
Proof.
  intros Hl Hp Hne. unfold MarshalSigned, bind.
  rewrite (Sign_run l rv k h Hl), Hp.
  by destruct (decide (p = PeerID rv)).
Qed.

(** ** [Equal] as a relation *)

Lemma Forall2_diag_iff {A} (Q : A -> A -> Prop) (xs : list A) :
  Forall2 Q xs xs <-> Forall (fun x => Q x x) xs.
Proof.
  split; [|apply Forall_Forall2_diag].
  induction xs as [|x xs IH]; [constructor|].
  intros Hall. apply Forall2_cons in Hall as [Hx Hxs].
  constructor; [done | by apply IH].
Qed.

(** X12. Comparing a record with itself: [Equal] answers true exactly
    when every address of the record is [Equal] to itself. *)
Theorem Equal_self l rv h :
  h !! l = Some rv ->
  exists b : bool,
    Equal (Ref l) (Ref l) h = Some (b, h) /\
    (b = true <-> Forall (fun a => ma_Equal a a = true) (Addrs rv)).
Proof.
  intros Hl. destruct (Equal_run l l rv rv h Hl Hl) as (b & Hrun & Hb).
  exists b. split; [done|]. rewrite Hb.
  unfold addrs_pairwise_equal. rewrite Forall2_diag_iff. tauto.
Qed.

(** X13. When [Equal] on addresses is symmetric, [Equal] on records is:
    swapping receiver and argument gives the same answer. *)
Theorem Equal_symmetric l1 l2 rv ov h :
  (forall a b, ma_Equal a b = ma_Equal b a) ->
  h !! l1 = Some rv ->
  h !! l2 = Some ov ->
  Equal (Ref l1) (Ref l2) h = Equal (Ref l2) (Ref l1) h.
Proof.
  intros Hsym H1 H2.
  destruct (Equal_run l1 l2 rv ov h H1 H2) as (b1 & -> & Hb1).
  destruct (Equal_run l2 l1 ov rv h H2 H1) as (b2 & -> & Hb2).
  f_equal. f_equal.
  assert (b1 = true <-> b2 = true) as Hiff.
  { rewrite Hb1, Hb2. unfold addrs_pairwise_equal.
    rewrite <- (Forall2_flip _ (Addrs ov) (Addrs rv)).
    split; intros (-> & -> & Hall); (split; [done|split; [done|]]).
    - eapply Forall2_impl; [exact Hall|]. intros a b. unfold flip.
      by rewrite Hsym.
    - eapply Forall2_impl; [exact Hall|]. intros a b. unfold flip.
      by rewrite Hsym. }
  destruct b1, b2; intuition congruence.
Qed.

(** X14. When [Equal] on addresses is transitive, [Equal] on records
    is. *)
Theorem Equal_transitive l1 l2 l3 rv1 rv2 rv3 h :
  (forall a b c,
     ma_Equal a b = true -> ma_Equal b c = true -> ma_Equal a c = true) ->
  h !! l1 = Some rv1 ->
  h !! l2 = Some rv2 ->
  h !! l3 = Some rv3 ->
  Equal (Ref l1) (Ref l2) h = Some (true, h) ->
  Equal (Ref l2) (Ref l3) h = Some (true, h) ->
  Equal (Ref l1) (Ref l3) h = Some (true, h).
Proof.
  intros Htrans H1 H2 H3 H12 H23.
  destruct (Equal_run l1 l2 rv1 rv2 h H1 H2) as (b12 & Hrun12 & Hb12).
  destruct (Equal_run l2 l3 rv2 rv3 h H2 H3) as (b23 & Hrun23 & Hb23).
  destruct (Equal_run l1 l3 rv1 rv3 h H1 H3) as (b13 & -> & Hb13).
  rewrite Hrun12 in H12. rewrite Hrun23 in H23.
  injection H12 as ->. injection H23 as ->.
  destruct Hb12 as [Hb12 _]. destruct (Hb12 eq_refl) as (Hid12 & Hs12 & Ha12).
  destruct Hb23 as [Hb23 _]. destruct (Hb23 eq_refl) as (Hid23 & Hs23 & Ha23).
  f_equal. f_equal. apply Hb13.
  split; [congruence|]. split; [congruence|].
  unfold addrs_pairwise_equal in *.
  revert Ha12 Ha23. generalize (Addrs rv1) (Addrs rv2) (Addrs rv3).
  intros xs ys zs Hxy. revert zs.
  induction Hxy as [|x y xs ys Hxy Hrest IH]; intros zs Hyz.
  - by inversion Hyz.
  - inversion Hyz as [|? z ? zs' Hy Hrest']; subst.
    constructor; [by eapply Htrans | by apply IH].
Qed.

Lemma addrsToProtobuf_pairwise (xs ys : list Multiaddr) :
  (forall a b, ma_Equal a b = true -> ma_Bytes a = ma_Bytes b) ->
  addrs_pairwise_equal xs ys ->
  addrsToProtobuf xs = addrsToProtobuf ys.
Proof.
  intros Hbytes Hall. rewrite !addrsToProtobuf_map.
  induction Hall as [|a b xs ys Hab _ IH]; [done|].
  simpl. f_equal; [|exact IH]. f_equal. by apply Hbytes.
Qed.

(** X15. When addresses that are [Equal] have the same encoding, records
    that are [Equal] marshal alike: [MarshalRecord] returns the same
    result for both. *)
Theorem Equal_same_marshalled l1 l2 rv ov h :
  (forall a b, ma_Equal a b = true -> ma_Bytes a = ma_Bytes b) ->
  h !! l1 = Some rv ->
  h !! l2 = Some ov ->
  Equal (Ref l1) (Ref l2) h = Some (true, h) ->
  MarshalRecord (Ref l1) h = MarshalRecord (Ref l2) h.
Proof.
  intros Hbytes H1 H2 Heq.
  destruct (Equal_run l1 l2 rv ov h H1 H2) as (b & Hrun & Hb).
  rewrite Hrun in Heq. injection Heq as ->.
  destruct Hb as [Hb _]. destruct (Hb eq_refl) as (Hid & Hseq & Hall).
  rewrite (MarshalRecord_run l1 rv h H1), (MarshalRecord_run l2 ov h H2).
  assert (addrsToProtobuf (Addrs rv) = addrsToProtobuf (Addrs ov)) as Hsame.
  { by apply addrsToProtobuf_pairwise. }
  rewrite Hid. unfold message_of. by rewrite Hsame, Hseq.
Qed.

(** X16. Two records built from the same [AddrInfo] at clock readings
    with different sequence numbers are distinct records on the heap, and
    [Equal] answers false for them. *)
Theorem PeerRecordFromAddrInfo_distinct_times
    (info : AddrInfo) (t1 t2 : Z) h :
  TimestampSeq t1 <> TimestampSeq t2 ->
  exists l1 l2 h1 h2,
    PeerRecordFromAddrInfo info t1 h = Some (Ref l1, h1) /\
    PeerRecordFromAddrInfo info t2 h1 = Some (Ref l2, h2) /\
    l1 <> l2 /\
    Equal (Ref l1) (Ref l2) h2 = Some (false, h2).
Proof.
  intros Hseq.
  destruct (PeerRecordFromAddrInfo_run info t1 h) as (l1 & Hrun1 & Hfresh1).
  set (r1 := {| PeerID := AddrInfo_ID info; Addrs := AddrInfo_Addrs info;
                Seq := TimestampSeq t1 |}) in *.
  destruct (PeerRecordFromAddrInfo_run info t2 (<[l1 := r1]> h))
    as (l2 & Hrun2 & Hfresh2).
  set (r2 := {| PeerID := AddrInfo_ID info; Addrs := AddrInfo_Addrs info;
                Seq := TimestampSeq t2 |}) in *.
  assert (l1 <> l2) as Hne.
  { intros <-. by rewrite lookup_insert_eq in Hfresh2. }
  exists l1, l2, (<[l1 := r1]> h), (<[l2 := r2]> (<[l1 := r1]> h)).
  split; [done|]. split; [done|]. split; [done|].
  destruct (Equal_run l1 l2 r1 r2 (<[l2 := r2]> (<[l1 := r1]> h)))
    as (b & Hrun & Hb).
  { rewrite lookup_insert_ne by done. apply lookup_insert_eq. }
  { apply lookup_insert_eq. }
  rewrite Hrun. destruct b; [|done].
  destruct Hb as [Hb _]. by destruct (Hb eq_refl) as (_ & ? & _).
Qed.

End Extras.

(** * The scenario of the spec, run on the reference instantiation *)

Import Byte Reference.

Ltac evaluate := vm_compute; reflexivity.

Lemma UnmarshalRecord_failure_atomic_witness :
  heapX !! 2%positive = Some PeerRecord_zero /\
  UnmarshalRecord (Ref 2) bytesBadID heapX
  = Some (Some (ErrExternal "multihash too short"), heapX) /\
  heapX !! 2%positive = Some PeerRecord_zero.
Proof.
  assert (Hl : heapX !! 2%positive = Some PeerRecord_zero) by evaluate.
  assert (Hrun : UnmarshalRecord (Ref 2) bytesBadID heapX
                 = Some (Some (ErrExternal "multihash too short"), heapX))
    by evaluate.
  split; [exact Hl|]. split; [exact Hrun|].
  exact (proj2 (UnmarshalRecord_failure_atomic 2 PeerRecord_zero bytesBadID
                  heapX _ heapX Hl Hrun)).
Defined.

Lemma UnmarshalRecord_lenient_witness :
  heapX !! 2%positive = Some PeerRecord_zero /\
  proto_Unmarshal bytesMixed = Ok msgMixed /\
  UnmarshalRecord (Ref 2) bytesMixed heapX
  = Some (None,
          <[2%positive :=
              {| PeerID := String.string_of_list_byte [x00; x01; x58];
                 Addrs := [addrX; [x04; x0a; x00; x00; x01]];
                 Seq := 7 |}]> heapX).
Proof.
  assert (Hl : heapX !! 2%positive = Some PeerRecord_zero) by evaluate.
  assert (Hwire : proto_Unmarshal bytesMixed = Ok msgMixed) by evaluate.
  split; [exact Hl|]. split; [exact Hwire|].
  apply (proj2 (UnmarshalRecord_lenient 2 PeerRecord_zero bytesMixed heapX Hl)
           msgMixed (String.string_of_list_byte [x00; x01; x58]) Hwire).
  evaluate.
Defined.

Lemma Equal_structural_witness :
  exists b : bool,
    Equal (Ref 1) (Ref 2) heapX = Some (b, heapX) /\
    (b = true <->
     PeerID peerX = PeerID PeerRecord_zero /\
     Seq peerX = Seq PeerRecord_zero /\
     length (Addrs peerX) = length (Addrs PeerRecord_zero) /\
     forall (i : nat) a b,
       Addrs peerX !! i = Some a -> Addrs PeerRecord_zero !! i = Some b ->
       ma_Equal a b = true).
Proof.
  apply (proj1 (Equal_structural heapX) 1%positive 2%positive
           peerX PeerRecord_zero); evaluate.
Defined.

Lemma Sign_identity_enforced_witness :
  heapX !! 1%positive = Some peerX /\
  Sign (Ref 1) keyY heapX = Some (Err ErrPeerIdMismatch, heapX) /\
  IDFromPrivateKey keyX = Ok (PeerID peerX).
Proof.
  assert (Hl : heapX !! 1%positive = Some peerX) by evaluate.
  split; [exact Hl|]. split.
  - apply (proj1 (Sign_identity_enforced 1 peerX keyY heapX Hl)
             (String.string_of_list_byte [x00; x01; x59])).
    + reflexivity.
    + vm_compute. discriminate.
  - apply (proj2 (Sign_identity_enforced 1 peerX keyX heapX Hl) envX heapX).
    evaluate.
Defined.

Lemma Sign_fixed_domain_and_type_witness :
  heapX !! 1%positive = Some peerX /\
  Sign (Ref 1) keyX heapX = Some (Ok envX, heapX) /\
  exists raw,
    MarshalRecord (Ref 1) heapX = Some (Ok raw, heapX) /\
    RawPayload envX = raw /\
    PrivKey_Sign keyX
      (signing_message "libp2p-peer-record"
         (String.list_byte_of_string "/libp2p/peer-record") raw)
    = Ok (signature envX).
Proof.
  assert (Hl : heapX !! 1%positive = Some peerX) by evaluate.
  assert (Hsign : Sign (Ref 1) keyX heapX = Some (Ok envX, heapX))
    by evaluate.
  split; [exact Hl|]. split; [exact Hsign|].
  exact (proj2 (proj2 (proj2
           (Sign_fixed_domain_and_type 1 peerX keyX heapX envX heapX
              Hl Hsign)))).
Defined.

Lemma MarshalSigned_is_sign_then_marshal_witness :
  Sign (Ref 1) keyX heapX = Some (Ok envX, heapX) /\
  MarshalSigned (Ref 1) keyX heapX = Some (Envelope_Marshal envX, heapX).
Proof.
  assert (Hsign : Sign (Ref 1) keyX heapX = Some (Ok envX, heapX))
    by evaluate.
  split; [exact Hsign|].
  exact (proj1 (proj2 (MarshalSigned_is_sign_then_marshal (Ref 1) keyX heapX))
           envX heapX Hsign).
Defined.

Lemma readers_leave_records_unchanged_witness :
  heapX !! 1%positive = Some peerX /\
  live heapX (Ref 2) /\
  (exists v, MarshalRecord (Ref 1) heapX = Some (v, heapX)) /\
  (exists v, Sign (Ref 1) keyX heapX = Some (v, heapX)) /\
  (exists v, MarshalSigned (Ref 1) keyX heapX = Some (v, heapX)) /\
  (exists b, Equal (Ref 1) (Ref 2) heapX = Some (b, heapX)).
Proof.
  assert (Hl : heapX !! 1%positive = Some peerX) by evaluate.
  assert (Ho : live heapX (Ref 2)) by (exists PeerRecord_zero; evaluate).
  split; [exact Hl|]. split; [exact Ho|].
  exact (readers_leave_records_unchanged 1 peerX keyX (Ref 2) heapX Hl Ho).
Defined.

Lemma parsed_bytes_eqb : parsed_address_is_Equal.
Proof.
  intros a a' Hparse. simpl in Hparse.
  destruct a as [|x a]; [discriminate|].
  destruct (valid_components (x :: a)); [|discriminate].
  injection Hparse as <-. by apply bool_decide_eq_true.
Defined.

Lemma MarshalRecord_UnmarshalRecord_roundtrip_witness :
  forallb well_formed_addr (Addrs peerX) = true /\
  MarshalRecord (Ref 1) heapX = Some (Ok bytesX, heapX) /\
  exists h',
    UnmarshalRecord (Ref 2) bytesX heapX = Some (None, h') /\
    h' !! 1%positive = Some peerX /\
    Equal (Ref 2) (Ref 1) h' = Some (true, h').
Proof.
  assert (Hwf : forallb well_formed_addr (Addrs peerX) = true) by evaluate.
  assert (Hm : MarshalRecord (Ref 1) heapX = Some (Ok bytesX, heapX))
    by evaluate.
  split; [exact Hwf|]. split; [exact Hm|].
  apply (MarshalRecord_UnmarshalRecord_roundtrip 1 2 peerX PeerRecord_zero
           bytesX heapX).
  - exact parsed_bytes_eqb.
  - evaluate.
  - evaluate.
  - discriminate.
  - exact Hwf.
  - intros b Hb. vm_compute in Hb. injection Hb as <-. evaluate.
  - intros idBytes Hid b Hb.
    vm_compute in Hid. injection Hid as <-.
    vm_compute in Hb. injection Hb as <-. evaluate.
  - exact Hm.
Defined.

Lemma init_registers_PeerRecord_witness :
  exists l registry',
    init ∅ heapX = Some (registry', <[l := PeerRecord_zero]> heapX) /\
    lookupPayloadType PeerRecordEnvelopePayloadType registry'
    = Some (AsRecord (Ref l)) /\
    Prototype_unmarshal (AsRecord (Ref l)) bytesX
      (<[l := PeerRecord_zero]> heapX)
    = Some (None, <[l := peerX]> heapX).
Proof.
  destruct (init_registers_PeerRecord ∅ heapX)
    as (l & registry' & _ & Hinit & Hlookup & Hdecode).
  exists l, registry'. split; [exact Hinit|]. split; [exact Hlookup|].
  rewrite (Hdecode bytesX msgX (String.string_of_list_byte [x00; x01; x58]));
    evaluate.
Defined.

(** ** The further properties, run on the reference instantiation *)

Lemma TimestampSeq_wraps_witness :
  0 <= TimestampSeq (-1) < 2 ^ 64 /\
  TimestampSeq (-1) = -1 + 2 ^ 64.
Proof.
  assert (Hn : - 2 ^ 63 <= -1 < 2 ^ 63) by lia.
  destruct (TimestampSeq_wraps (-1) Hn) as (Hrange & _ & Hneg).
  split; [exact Hrange|]. apply Hneg. lia.
Defined.

Lemma TimestampSeq_order_witness :
  TimestampSeq 1000 < TimestampSeq 1001 /\
  TimestampSeq 1000 < TimestampSeq (-5).
Proof.
  split.
  - apply (proj1 (TimestampSeq_order 1000 1001 ltac:(lia) ltac:(lia)
                    ltac:(lia))). left. lia.
  - apply (proj2 (TimestampSeq_order (-5) 1000 ltac:(lia) ltac:(lia)
                    ltac:(lia))). lia.
Defined.

Lemma NewPeerRecord_fresh_witness :
  exists l h',
    NewPeerRecord 1000 heapX = Some (Ref l, h') /\
    h' !! 1%positive = Some peerX.
Proof.
  destruct (NewPeerRecord_fresh 1000 heapX) as (l & h' & Hrun & _ & _ & Hold).
  exists l, h'. split; [exact Hrun|]. apply Hold. evaluate.
Defined.

Lemma PeerRecordFromAddrInfo_fields_witness :
  exists l h',
    PeerRecordFromAddrInfo infoX 1000 heapX = Some (Ref l, h') /\
    h' !! l = Some {| PeerID := AddrInfo_ID infoX;
                      Addrs := AddrInfo_Addrs infoX;
                      Seq := TimestampSeq 1000 |} /\
    h' !! 1%positive = Some peerX.
Proof.
  destruct (PeerRecordFromAddrInfo_fields infoX 1000 heapX)
    as (l & h' & Hrun & _ & Hnew & Hold).
  exists l, h'. split; [exact Hrun|]. split; [exact Hnew|].
  apply Hold. evaluate.
Defined.


Lemma addrsFromProtobuf_app_witness :
  addrsFromProtobuf
    ([ {| Multiaddr_bytes := addrX |} ] ++
     {| Multiaddr_bytes := [xff] |} :: [ {| Multiaddr_bytes := addrX |} ])
  = addrsFromProtobuf
      ([ {| Multiaddr_bytes := addrX |} ] ++ [ {| Multiaddr_bytes := addrX |} ]).
Proof.
  apply (proj2 (addrsFromProtobuf_app [ {| Multiaddr_bytes := addrX |} ]
                  [ {| Multiaddr_bytes := addrX |} ])).
  evaluate.
Defined.

Lemma UnmarshalRecord_overwrites_witness :
  UnmarshalRecord (Ref 2) bytesX heapX
  = Some (None, <[2%positive := peerX]> heapX) /\
  UnmarshalRecord (Ref 2) bytesX (<[2%positive := peerBad]> heapX)
  = Some (None, <[2%positive := peerX]> heapX) /\
  <[2%positive := peerX]> heapX !! 1%positive = heapX !! 1%positive.
Proof.
  assert (Hl : heapX !! 2%positive = Some PeerRecord_zero) by evaluate.
  assert (Hrun : UnmarshalRecord (Ref 2) bytesX heapX
                 = Some (None, <[2%positive := peerX]> heapX)) by evaluate.
  destruct (UnmarshalRecord_overwrites 2 PeerRecord_zero bytesX heapX _
              Hl Hrun) as (Hframe & Hany & _).
  split; [exact Hrun|]. split; [apply Hany|]. apply Hframe. discriminate.
Defined.

Lemma roundtrip_drops_unparsable_witness :
  MarshalRecord (Ref 1) heapBad = Some (Ok bytesBad, heapBad) /\
  exists h' dv',
    UnmarshalRecord (Ref 2) bytesBad heapBad = Some (None, h') /\
    h' !! 2%positive = Some dv' /\
    (length (Addrs dv') < length (Addrs peerBad))%nat /\
    Equal (Ref 2) (Ref 1) h' = Some (false, h').
Proof.
  assert (Hm : MarshalRecord (Ref 1) heapBad = Some (Ok bytesBad, heapBad))
    by evaluate.
  split; [exact Hm|].
  apply (roundtrip_drops_unparsable 1 2 peerBad PeerRecord_zero
           bytesBad heapBad).
  - evaluate.
  - evaluate.
  - discriminate.
  - evaluate.
  - intros b Hb. vm_compute in Hb. injection Hb as <-. evaluate.
  - intros idBytes Hid b Hb.
    vm_compute in Hid. injection Hid as <-.
    vm_compute in Hb. injection Hb as <-. evaluate.
  - exact Hm.
Defined.

Lemma Sign_key_error_first_witness :
  Sign (cryptolib := FailingKeys.crypto) (envlib := FailingKeys.envelope)
    Nil FailingKeys.badKey heapX
  = Some (Err (ErrExternal "invalid private key"), heapX) /\
  Sign Nil keyX heapX = None.
Proof.
  split.
  - apply (proj1 (Sign_key_error_first (cryptolib := FailingKeys.crypto)
                    (envlib := FailingKeys.envelope)
                    FailingKeys.badKey heapX)
             (ErrExternal "invalid private key")).
    reflexivity.
  - apply (proj1 (proj2 (Sign_key_error_first keyX heapX))
             (PeerID peerX)).
    reflexivity.
Defined.

Lemma MarshalSigned_identity_mismatch_witness :
  MarshalSigned (Ref 1) keyY heapX = Some (Err ErrPeerIdMismatch, heapX).
Proof.
  apply (MarshalSigned_identity_mismatch 1 peerX keyY
           (String.string_of_list_byte [x00; x01; x59]) heapX).
  - evaluate.
  - reflexivity.
  - vm_compute. discriminate.
Defined.

Lemma Equal_self_witness :
  exists b : bool,
    Equal (Ref 1) (Ref 1) heapX = Some (b, heapX) /\
    (b = true <-> Forall (fun a => ma_Equal a a = true) (Addrs peerX)).
Proof. apply (Equal_self 1 peerX heapX). evaluate. Defined.

Lemma bytes_eqb_sym (a b : bytes) : bytes_eqb a b = bytes_eqb b a.
Proof. unfold bytes_eqb. apply bool_decide_ext. split; congruence. Defined.

Lemma bytes_eqb_trans (a b c : bytes) :
  bytes_eqb a b = true -> bytes_eqb b c = true -> bytes_eqb a c = true.
Proof.
  unfold bytes_eqb. rewrite !bool_decide_eq_true. congruence.
Defined.

Lemma bytes_eqb_eq (a b : bytes) : bytes_eqb a b = true -> a = b.
Proof.
  unfold bytes_eqb. rewrite bool_decide_eq_true.
  revert b. induction a as [|x a IH]; intros [|y b] Hab; try discriminate.
  - reflexivity.
  - injection Hab as Hxy Hrest. f_equal; [|by apply IH].
    assert (Some x = Some y) as Hsome
      by (rewrite <- (Byte.of_to_N x), <- (Byte.of_to_N y); congruence).
    by injection Hsome.
Defined.

Lemma Equal_symmetric_witness :
  Equal (Ref 1) (Ref 2) heapX = Equal (Ref 2) (Ref 1) heapX.
Proof.
  apply (Equal_symmetric 1 2 peerX PeerRecord_zero heapX).
  - exact bytes_eqb_sym.
  - evaluate.
  - evaluate.
Defined.

Lemma Equal_transitive_witness :
  Equal (Ref 1) (Ref 3) heapXXX = Some (true, heapXXX) /\
  Equal (Ref 3) (Ref 4) heapXXX = Some (true, heapXXX) /\
  Equal (Ref 1) (Ref 4) heapXXX = Some (true, heapXXX).
Proof.
  assert (H13 : Equal (Ref 1) (Ref 3) heapXXX = Some (true, heapXXX))
    by evaluate.
  assert (H34 : Equal (Ref 3) (Ref 4) heapXXX = Some (true, heapXXX))
    by evaluate.
  split; [exact H13|]. split; [exact H34|].
  apply (Equal_transitive 1 3 4 peerX peerX peerX heapXXX).
  - exact bytes_eqb_trans.
  - evaluate.
  - evaluate.
  - evaluate.
  - exact H13.
  - exact H34.
Defined.

Lemma Equal_same_marshalled_witness :
  MarshalRecord (Ref 1) heapXX = MarshalRecord (Ref 3) heapXX.
Proof.
  apply (Equal_same_marshalled 1 3 peerX peerX heapXX).
  - exact bytes_eqb_eq.
  - evaluate.
  - evaluate.
  - evaluate.
Defined.

Lemma PeerRecordFromAddrInfo_distinct_times_witness :
  exists l1 l2 h1 h2,
    PeerRecordFromAddrInfo infoX 1000 heapX = Some (Ref l1, h1) /\
    PeerRecordFromAddrInfo infoX 1001 h1 = Some (Ref l2, h2) /\
    l1 <> l2 /\
    Equal (Ref l1) (Ref l2) h2 = Some (false, h2).
Proof.
  apply (PeerRecordFromAddrInfo_distinct_times infoX 1000 1001 heapX).
  vm_compute. discriminate.
Defined.

(** The claim C2 as worded fails on a record as [NewPeerRecord] leaves
    it.  Its addresses are all well formed (there are none), the wire
    codec decodes what it encoded for it, and the address law holds; but
    its identity encodes to no bytes, which do not decode, so
    [UnmarshalRecord] of the marshalled bytes returns an error, the
    destination keeps what it held, and that is not [Equal] to the
    record. *)
Lemma roundtrip_fails_on_undecodable_identity :
  forallb well_formed_addr (Addrs peerNew) = true /\
  parsed_address_is_Equal /\
  wire_codec_inverts (message_of [] peerNew) /\
  MarshalRecord (Ref 1) heapNew = Some (Ok [x10; xe8; x07], heapNew) /\
  UnmarshalRecord (Ref 2) [x10; xe8; x07] heapNew
  = Some (Some (ErrExternal "multihash too short"), heapNew) /\
  Equal (Ref 2) (Ref 1) heapNew = Some (false, heapNew) /\
  ~ (exists h',
       UnmarshalRecord (Ref 2) [x10; xe8; x07] heapNew = Some (None, h') /\
       Equal (Ref 2) (Ref 1) h' = Some (true, h')).
Proof.
  assert (Hrun : UnmarshalRecord (Ref 2) [x10; xe8; x07] heapNew
                 = Some (Some (ErrExternal "multihash too short"), heapNew))
    by evaluate.
  split; [evaluate|]. split; [exact parsed_bytes_eqb|]. split.
  { intros b Hb. vm_compute in Hb. injection Hb as <-. evaluate. }
  split; [evaluate|]. split; [exact Hrun|]. split; [evaluate|].
  intros (h' & Hok & _). rewrite Hrun in Hok. discriminate.
Qed.
